(** * AtomicShims: the atomic integer cell and its three operations

    A shallow embedding of [Sources/AtomicShims/AtomicShims.c] and
    [Sources/AtomicShims/include/AtomicShims.h].

    - [intptr_t] is a signed integer of the platform's pointer width; the
      width is left open (a [Platform] instance fixes it).
    - [AtomicInt] is the one-field struct of the header.
    - [store], [load] and [exchange] are state-passing functions over the
      struct their pointer argument designates; the pointer is taken to
      designate a live, aligned [AtomicInt], as the C functions require of
      their callers.  Each calls one generic
      function of <stdatomic.h>; those are modelled after C11 7.17.7, with
      the memory order an explicit argument that is checked (an order the
      standard forbids for the operation makes the call undefined) and
      recorded in the trace of atomic accesses.
    - Concurrent use is modelled by interleaving: every operation on an
      [atomic_intptr_t] is one indivisible access, and the accesses to one
      atomic object occur in a single total order that respects each
      thread's program order (C11 5.1.2.4, coherence). *)

From Stdlib Require Import ZArith List Bool Lia Eqdep_dec Permutation.
Import ListNotations.
Local Open Scope Z_scope.

(** ** Pointer-sized integers *)

(** The width of [intptr_t] in bits.  C requires INTPTR_MAX >= 32767, hence
    at least 16 bits. *)
Class Platform := {
  ptr_bits : Z;
  ptr_bits_min : (16 <=? ptr_bits) = true
}.

#[export] Instance LP64 : Platform := {| ptr_bits := 64; ptr_bits_min := eq_refl |}.
#[export] Instance ILP32 : Platform := {| ptr_bits := 32; ptr_bits_min := eq_refl |}.

Section Intptr.
Context {P : Platform}.

Definition half_range : Z := 2 ^ (ptr_bits - 1).
Definition INTPTR_MIN : Z := - half_range.
Definition INTPTR_MAX : Z := half_range - 1.

Definition representable (z : Z) : bool :=
  (INTPTR_MIN <=? z) && (z <=? INTPTR_MAX).

Record intptr_t := mk_intptr {
  intval : Z;
  intrange : representable intval = true
}.

(** Conversion of an arbitrary integer to [intptr_t]: reduction modulo
    2^ptr_bits into the signed range. *)
Definition wrap (z : Z) : Z :=
  (z + half_range) mod (2 * half_range) - half_range.

Lemma ptr_bits_ge_16 : 16 <= ptr_bits.
Proof. apply Z.leb_le, ptr_bits_min. Qed.

Lemma half_range_big : 32768 <= half_range.
Proof.
  unfold half_range. pose proof ptr_bits_ge_16 as Hb.
  change 32768 with (2 ^ 15).
  apply Z.pow_le_mono_r; lia.
Qed.

Lemma wrap_representable (z : Z) : representable (wrap z) = true.
Proof.
  pose proof half_range_big as Hh.
  unfold representable, wrap, INTPTR_MIN, INTPTR_MAX.
  pose proof (Z.mod_pos_bound (z + half_range) (2 * half_range)) as Hm.
  apply andb_true_iff; split; apply Z.leb_le; lia.
Qed.

Definition intptr_of_Z (z : Z) : intptr_t :=
  mk_intptr (wrap z) (wrap_representable z).

Definition intptr_eqb (a b : intptr_t) : bool := intval a =? intval b.

(** ** The header: [AtomicInt] *)

Definition atomic_intptr_t : Type := intptr_t.

Record AtomicInt := { value : atomic_intptr_t }.

(** ** <stdatomic.h> *)

(** The memory orders, under the compiler's names used by the source. *)
Inductive memory_order :=
| __ATOMIC_RELAXED
| __ATOMIC_CONSUME
| __ATOMIC_ACQUIRE
| __ATOMIC_RELEASE
| __ATOMIC_ACQ_REL
| __ATOMIC_SEQ_CST.

Definition memory_order_eqb (a b : memory_order) : bool :=
  match a, b with
  | __ATOMIC_RELAXED, __ATOMIC_RELAXED
  | __ATOMIC_CONSUME, __ATOMIC_CONSUME
  | __ATOMIC_ACQUIRE, __ATOMIC_ACQUIRE
  | __ATOMIC_RELEASE, __ATOMIC_RELEASE
  | __ATOMIC_ACQ_REL, __ATOMIC_ACQ_REL
  | __ATOMIC_SEQ_CST, __ATOMIC_SEQ_CST => true
  | _, _ => false
  end.

(** C11 7.17.7.1: the order of a store shall not be acquire, consume or
    acq_rel. *)
Definition valid_store_order (o : memory_order) : bool :=
  match o with
  | __ATOMIC_RELAXED | __ATOMIC_RELEASE | __ATOMIC_SEQ_CST => true
  | _ => false
  end.

(** C11 7.17.7.2: the order of a load shall not be release or acq_rel. *)
Definition valid_load_order (o : memory_order) : bool :=
  match o with
  | __ATOMIC_RELEASE | __ATOMIC_ACQ_REL => false
  | _ => true
  end.

(** Does a write with this order release, does a read with this order
    acquire (C11 7.17.3)? *)
Definition is_release (o : memory_order) : bool :=
  match o with
  | __ATOMIC_RELEASE | __ATOMIC_ACQ_REL | __ATOMIC_SEQ_CST => true
  | _ => false
  end.

Definition is_acquire (o : memory_order) : bool :=
  match o with
  | __ATOMIC_ACQUIRE | __ATOMIC_ACQ_REL | __ATOMIC_SEQ_CST => true
  | _ => false
  end.

(** One atomic access to the object: what it did, under which order, what
    it read and what it wrote. *)
Inductive event :=
| EvStore (order : memory_order) (desired : intptr_t)
| EvLoad (order : memory_order) (seen : intptr_t)
| EvExchange (order : memory_order) (seen desired : intptr_t).

Definition event_order (e : event) : memory_order :=
  match e with
  | EvStore o _ | EvLoad o _ | EvExchange o _ _ => o
  end.

Definition event_written (e : event) : option intptr_t :=
  match e with
  | EvStore _ v | EvExchange _ _ v => Some v
  | EvLoad _ _ => None
  end.

Definition event_read (e : event) : option intptr_t :=
  match e with
  | EvLoad _ v | EvExchange _ v _ => Some v
  | EvStore _ _ => None
  end.

(** ** Computations over a state: result, final state and the atomic
    accesses performed, or undefined behaviour. *)

Inductive outcome (S A : Type) :=
| Done (result : A) (final : S) (trace : list event)
| Undefined.
#[global] Arguments Done {S A} result final trace.
#[global] Arguments Undefined {S A}.

Definition action (S A : Type) : Type := S -> outcome S A.

Definition ret {S A} (a : A) : action S A := fun s => Done a s [].

Definition bind {S A B} (m : action S A) (k : A -> action S B) : action S B :=
  fun s =>
    match m s with
    | Done a s1 t1 =>
        match k a s1 with
        | Done b s2 t2 => Done b s2 (t1 ++ t2)
        | Undefined => Undefined
        end
    | Undefined => Undefined
    end.

(** A member of a struct, as the place an address expression designates. *)
Record place (S A : Type) := {
  get : S -> A;
  set : A -> S -> S
}.
#[global] Arguments get {S A} _ _.
#[global] Arguments set {S A} _ _ _.

Definition at_place {S A B} (p : place S A) (m : action A B) : action S B :=
  fun s =>
    match m (get p s) with
    | Done b a t => Done b (set p a s) t
    | Undefined => Undefined
    end.

Definition result_of {S A} (o : outcome S A) : option A :=
  match o with Done a _ _ => Some a | Undefined => None end.

Definition final_of {S A} (o : outcome S A) : option S :=
  match o with Done _ s _ => Some s | Undefined => None end.

Definition trace_of {S A} (o : outcome S A) : option (list event) :=
  match o with Done _ _ t => Some t | Undefined => None end.

(** The generic functions, on the atomic object itself. *)
Definition atomic_store_explicit (desired : intptr_t) (order : memory_order)
  : action atomic_intptr_t unit :=
  fun _ =>
    if valid_store_order order
    then Done tt desired [EvStore order desired]
    else Undefined.

Definition atomic_load_explicit (order : memory_order)
  : action atomic_intptr_t intptr_t :=
  fun obj =>
    if valid_load_order order
    then Done obj obj [EvLoad order obj]
    else Undefined.

Definition atomic_exchange_explicit (desired : intptr_t) (order : memory_order)
  : action atomic_intptr_t intptr_t :=
  fun obj => Done obj desired [EvExchange order obj desired].

(** ** AtomicShims.c *)

(** [&atomic_value->value] *)
Definition atomic_value_value : place AtomicInt atomic_intptr_t :=
  {| get := value; set := fun v _ => {| value := v |} |}.

Definition store (value : intptr_t) : action AtomicInt unit :=
  at_place atomic_value_value (atomic_store_explicit value __ATOMIC_RELAXED).

Definition load : action AtomicInt intptr_t :=
  at_place atomic_value_value (atomic_load_explicit __ATOMIC_ACQUIRE).

Definition exchange (value : intptr_t) : action AtomicInt intptr_t :=
  at_place atomic_value_value (atomic_exchange_explicit value __ATOMIC_RELEASE).

End Intptr.

Declare Scope action_scope.
Delimit Scope action_scope with action.
Notation "x <- m ;; k" := (bind m (fun x => k))
  (at level 61, m at next level, right associativity) : action_scope.
Notation "m ;; k" := (bind m (fun _ => k))
  (at level 61, right associativity) : action_scope.
Open Scope action_scope.

(** ** Threads calling into one shared cell *)

Section Threads.
Context {P : Platform}.

(** A call of one of the three entry points, and what it returned. *)
Inductive call :=
| CallStore (value : intptr_t)
| CallLoad
| CallExchange (value : intptr_t).

Inductive reply :=
| RetVoid
| RetInt (r : intptr_t).

Definition perform (k : call) : action AtomicInt reply :=
  match k with
  | CallStore v => store v ;; ret RetVoid
  | CallLoad => r <- load ;; ret (RetInt r)
  | CallExchange v => r <- exchange v ;; ret (RetInt r)
  end.

(** The value a call puts into the cell, if it writes. *)
Definition call_written (k : call) : option intptr_t :=
  match k with
  | CallStore v | CallExchange v => Some v
  | CallLoad => None
  end.

(** A completed call: the thread that made it, the call, the value returned. *)
Record completed := {
  who : nat;
  what : call;
  got : reply
}.

(** The shared cell, what every thread has still to call (thread [i] is the
    [i]-th entry), the calls completed so far, oldest first, and the atomic
    accesses performed so far. *)
Record machine := {
  shared : AtomicInt;
  pending : list (list call);
  history : list completed;
  accesses : list event
}.

Fixpoint replace_nth {A} (n : nat) (x : A) (l : list A) : list A :=
  match l, n with
  | [], _ => []
  | _ :: tl, O => x :: tl
  | hd :: tl, S n' => hd :: replace_nth n' x tl
  end.

(** Thread [tid] makes its next call, as one step.  A thread with nothing
    left to call (or that does not exist) leaves the machine as it is;
    [None] is undefined behaviour. *)
Definition step (tid : nat) (m : machine) : option machine :=
  match nth_error (pending m) tid with
  | Some (k :: rest) =>
      match perform k (shared m) with
      | Done r cell t =>
          Some {| shared := cell;
                  pending := replace_nth tid rest (pending m);
                  history := history m ++ [{| who := tid; what := k; got := r |}];
                  accesses := accesses m ++ t |}
      | Undefined => None
      end
  | _ => Some m
  end.

(** Run a schedule: the list of thread ids in the order they get to step. *)
Fixpoint run (sched : list nat) (m : machine) : option machine :=
  match sched with
  | [] => Some m
  | tid :: sched' =>
      match step tid m with
      | Some m' => run sched' m'
      | None => None
      end
  end.

Definition boot (cell : AtomicInt) (pool : list (list call)) : machine :=
  {| shared := cell; pending := pool; history := []; accesses := [] |}.

(** The cell as a sequential register: the value a call must return when the
    cell holds [cur], and the value the cell holds afterwards. *)
Definition register_reply (cur : intptr_t) (k : call) : reply :=
  match k with
  | CallStore _ => RetVoid
  | CallLoad | CallExchange _ => RetInt cur
  end.

Definition register_next (cur : intptr_t) (k : call) : intptr_t :=
  match call_written k with
  | Some v => v
  | None => cur
  end.

Fixpoint register_history (cur : intptr_t) (h : list completed) : Prop :=
  match h with
  | [] => True
  | c :: h' =>
      got c = register_reply cur (what c)
      /\ register_history (register_next cur (what c)) h'
  end.

Fixpoint register_final (cur : intptr_t) (h : list completed) : intptr_t :=
  match h with
  | [] => cur
  | c :: h' => register_final (register_next cur (what c)) h'
  end.

(** The [i]-th completed call is a load that returned [r]. *)
Definition load_returned (h : list completed) (i : nat) (r : intptr_t) : Prop :=
  exists tid, nth_error h i = Some {| who := tid; what := CallLoad; got := RetInt r |}.

(** Some call completed before the [i]-th wrote [r]. *)
Definition written_before (h : list completed) (i : nat) (r : intptr_t) : Prop :=
  exists j c, (j < i)%nat /\ nth_error h j = Some c /\ call_written (what c) = Some r.

(** Every load returns a value written by an earlier store or exchange. *)
Definition loads_see_prior_writes (h : list completed) : Prop :=
  forall i r, load_returned h i r -> written_before h i r.

(** Every load returns the value the cell started with or a value written
    by an earlier store or exchange. *)
Definition loads_see_initial_or_prior_writes
  (initial : intptr_t) (h : list completed) : Prop :=
  forall i r, load_returned h i r -> r = initial \/ written_before h i r.

(** The invariant of a run from a cell holding [initial]: the completed
    calls are a history of a sequential register that started at [initial],
    and the cell holds that register's current value. *)
Definition coherent (initial : intptr_t) (m : machine) : Prop :=
  register_history initial (history m)
  /\ value (shared m) = register_final initial (history m).

End Threads.

(** ** Observations on a history, and ways of using the cell *)

Section Observations.
Context {P : Platform}.

(** The [i]-th completed call is an exchange that returned [r]. *)
Definition exchange_returned (h : list completed) (i : nat) (r : intptr_t) : Prop :=
  exists tid v,
    nth_error h i = Some {| who := tid; what := CallExchange v; got := RetInt r |}.

(** The [i]-th completed call returned the integer [r]. *)
Definition read_returned (h : list completed) (i : nat) (r : intptr_t) : Prop :=
  exists d, nth_error h i = Some d /\ got d = RetInt r.

(** Every completed call returned what a sequential register would have
    returned after the calls completed before it. *)
Definition replies_track_register (initial : intptr_t) (h : list completed) : Prop :=
  forall i d,
    nth_error h i = Some d ->
    got d = register_reply (register_final initial (firstn i h)) (what d).

(** The values exchanges took out of the cell and the values they put in. *)
Definition taken (d : completed) : list intptr_t :=
  match what d, got d with
  | CallExchange _, RetInt r => [r]
  | _, _ => []
  end.

Definition given (d : completed) : list intptr_t :=
  match what d with
  | CallExchange v => [v]
  | _ => []
  end.

Definition handed_out (h : list completed) : list intptr_t := flat_map taken h.
Definition handed_in (h : list completed) : list intptr_t := flat_map given h.

(** At most one exchange returned [x]. *)
Definition returned_by_one_exchange_at_most (x : intptr_t) (h : list completed) : Prop :=
  forall i j, exchange_returned h i x -> exchange_returned h j x -> i = j.

(** Once a load or exchange has returned something other than [x], none
    after it returns [x]. *)
Definition never_seen_again (x : intptr_t) (h : list completed) : Prop :=
  forall i j r,
    (i < j)%nat -> read_returned h i r -> r <> x -> ~ read_returned h j x.

(** What the threads are given to call. *)
Definition is_store (k : call) : bool :=
  match k with CallStore _ => true | _ => false end.

Definition avoids (x : intptr_t) (k : call) : bool :=
  match call_written k with
  | Some v => negb (intptr_eqb v x)
  | None => true
  end.

Definition never_stores (pool : list (list call)) : bool :=
  forallb (forallb (fun k => negb (is_store k))) pool.

Definition never_writes (x : intptr_t) (pool : list (list call)) : bool :=
  forallb (forallb (avoids x)) pool.

(** No call of [h] writes [x]. *)
Definition unwritten (x : intptr_t) (h : list completed) : Prop :=
  Forall (fun d => avoids x (what d) = true) h.

(** Every call pending or completed passes [q]. *)
Definition calls_satisfy (q : call -> bool) (m : machine) : Prop :=
  Forall (Forall (fun k => q k = true)) (pending m)
  /\ Forall (fun d => q (what d) = true) (history m).

(** The atomic access a completed call stands for. *)
Definition access_of (d : completed) : option event :=
  match what d, got d with
  | CallStore v, RetVoid => Some (EvStore __ATOMIC_RELAXED v)
  | CallLoad, RetInt r => Some (EvLoad __ATOMIC_ACQUIRE r)
  | CallExchange v, RetInt r => Some (EvExchange __ATOMIC_RELEASE r v)
  | _, _ => None
  end.

(** A caller's read-modify-write made of two calls: read the cell, then
    overwrite it. *)
Definition load_then_store (v : intptr_t) : action AtomicInt intptr_t :=
  r <- load ;; store v ;; ret r.

End Observations.

(** * Properties *)

(** ** Pointer-sized integers *)

Section IntptrFacts.
Context {P : Platform}.

Lemma wrap_small (z : Z) : -32768 <= z <= 32767 -> wrap z = z.
Proof.
  intros Hz. pose proof half_range_big as Hh. unfold wrap.
  rewrite Z.mod_small; lia.
Qed.

Lemma intptr_t_ext (a b : intptr_t) : intval a = intval b -> a = b.
Proof.
  destruct a as [x Hx], b as [y Hy]; simpl; intros ->.
  f_equal. apply UIP_dec, bool_dec.
Qed.

Lemma intval_of_small (z : Z) :
  -32768 <= z <= 32767 -> intval (intptr_of_Z z) = z.
Proof. intros Hz. simpl. now apply wrap_small. Qed.

Lemma intval_bounds (a : intptr_t) : INTPTR_MIN <= intval a <= INTPTR_MAX.
Proof.
  destruct a as [x Hx]; simpl. unfold representable in Hx.
  apply andb_true_iff in Hx. destruct Hx as [Hlo Hhi].
  apply Z.leb_le in Hlo, Hhi. lia.
Qed.

Lemma intptr_eqb_eq (a b : intptr_t) : intptr_eqb a b = true <-> a = b.
Proof.
  unfold intptr_eqb. rewrite Z.eqb_eq. split.
  - apply intptr_t_ext.
  - now intros ->.
Qed.

Lemma intptr_of_Z_intval (a : intptr_t) : intptr_of_Z (intval a) = a.
Proof.
  apply intptr_t_ext. simpl. unfold wrap.
  pose proof (intval_bounds a) as Hb. pose proof half_range_big as Hh.
  unfold INTPTR_MIN, INTPTR_MAX in Hb.
  rewrite Z.mod_small; lia.
Qed.

End IntptrFacts.

(** ** The three operations, one call at a time *)

Section Sequential.
Context {P : Platform}.

Lemma AtomicInt_eta (c : AtomicInt) : {| value := value c |} = c.
Proof. now destruct c. Qed.

(** What each entry point computes, in full. *)
Lemma store_eq (c : AtomicInt) (v : intptr_t) :
  store v c = Done tt {| value := v |} [EvStore __ATOMIC_RELAXED v].
Proof. reflexivity. Qed.

Lemma load_eq (c : AtomicInt) :
  load c = Done (value c) c [EvLoad __ATOMIC_ACQUIRE (value c)].
Proof. unfold load, at_place; simpl. now rewrite AtomicInt_eta. Qed.

Lemma exchange_eq (c : AtomicInt) (v : intptr_t) :
  exchange v c
  = Done (value c) {| value := v |} [EvExchange __ATOMIC_RELEASE (value c) v].
Proof. reflexivity. Qed.

Lemma bind_Done {S A B} (m : action S A) (k : A -> action S B) s a s1 t1 :
  m s = Done a s1 t1 ->
  bind m k s = match k a s1 with
               | Done b s2 t2 => Done b s2 (t1 ++ t2)
               | Undefined => Undefined
               end.
Proof. intros H. unfold bind. now rewrite H. Qed.

Ltac run_ops :=
  repeat first
    [ erewrite bind_Done by (first [apply store_eq | apply load_eq | apply exchange_eq])
    | rewrite store_eq | rewrite load_eq | rewrite exchange_eq ];
  unfold ret; simpl.

(** C1: a store of [v] followed directly by a load returns [v], for every
    value [v] and every cell. *)
Theorem store_then_load (c : AtomicInt) (v : intptr_t) :
  result_of ((store v ;; load) c) = Some v.
Proof. run_ops. reflexivity. Qed.

(** C2: after a store of [v1], an exchange with [v2] returns [v1] and a
    following load returns [v2], for all values [v1], [v2] and every cell. *)
Theorem store_exchange_load (c : AtomicInt) (v1 v2 : intptr_t) :
  result_of ((store v1 ;; r <- exchange v2 ;; x <- load ;; ret (r, x)) c)
  = Some (v1, v2).
Proof. run_ops. reflexivity. Qed.

(** C3: an exchange with [v] returns the value the cell held just before
    and leaves the cell holding [v], whatever the cell held and whatever
    [v] is; on a cell holding 3, an exchange with 7 returns 3 and a
    following load returns 7. *)
Theorem exchange_returns_prior (c : AtomicInt) (v : intptr_t) :
  (result_of (exchange v c) = Some (value c)
   /\ final_of (exchange v c) = Some {| value := v |})
  /\ (let three := intptr_of_Z 3 in
      let seven := intptr_of_Z 7 in
      intval three = 3 /\ intval seven = 7
      /\ result_of ((r <- exchange seven ;; x <- load ;; ret (r, x))
                      {| value := three |})
         = Some (three, seven)).
Proof.
  split; [split; reflexivity|].
  cbv zeta. split; [|split].
  - apply intval_of_small; lia.
  - apply intval_of_small; lia.
  - run_ops. reflexivity.
Qed.

(** C4: a load returns the value the cell holds and leaves the cell as it
    was. *)
Theorem load_is_pure_read (c : AtomicInt) :
  result_of (load c) = Some (value c) /\ final_of (load c) = Some c.
Proof. rewrite load_eq. split; reflexivity. Qed.

(** C5: a store of [v] is defined on every cell and for every [v], returns
    nothing, and leaves the cell holding [v] whatever it held before. *)
Theorem store_total (c : AtomicInt) (v : intptr_t) :
  exists t, store v c = Done tt {| value := v |} t.
Proof. eexists. apply store_eq. Qed.

(** C6: each of the three operations yields a result on every cell and for
    every argument, after exactly one atomic access to the cell: no loop,
    no retry, no wait. *)
Theorem operations_complete (c : AtomicInt) (v : intptr_t) :
  (exists c' e, store v c = Done tt c' [e])
  /\ (exists r c' e, load c = Done r c' [e])
  /\ (exists r c' e, exchange v c = Done r c' [e]).
Proof.
  split; [|split].
  - do 2 eexists. apply store_eq.
  - do 3 eexists. apply load_eq.
  - do 3 eexists. apply exchange_eq.
Qed.

(** C7: the store is performed with relaxed order, the load with acquire
    order and the exchange with release order. *)
Theorem operation_orders (c : AtomicInt) (v : intptr_t) :
  option_map (map event_order) (trace_of (store v c)) = Some [__ATOMIC_RELAXED]
  /\ option_map (map event_order) (trace_of (load c)) = Some [__ATOMIC_ACQUIRE]
  /\ option_map (map event_order) (trace_of (exchange v c)) = Some [__ATOMIC_RELEASE].
Proof. rewrite load_eq. repeat split. Qed.

(** C9: a store of [v] and an exchange with [v] leave the cell in the same
    state, whatever it held before; they write the same value and differ in
    what they return and in the memory order. *)
Theorem store_exchange_same_effect (c : AtomicInt) (v : intptr_t) :
  exists c',
    final_of (store v c) = Some c'
    /\ final_of (exchange v c) = Some c'
    /\ option_map (map event_written) (trace_of (store v c))
       = option_map (map event_written) (trace_of (exchange v c)).
Proof. exists {| value := v |}. repeat split. Qed.

(** C10: if an exchange with [v] returned [r], an exchange with [r] right
    after it returns [v] and leaves the cell as it was at the start. *)
Theorem exchange_round_trip (c : AtomicInt) (v : intptr_t) :
  let o := (r <- exchange v ;; exchange r) c in
  result_of o = Some v /\ final_of o = Some c.
Proof.
  cbv zeta. run_ops. split; [reflexivity|].
  now rewrite AtomicInt_eta.
Qed.

End Sequential.

(** ** What the orders mean for synchronisation *)

Section Orders.
Context {P : Platform}.

Lemma store_does_not_release (c : AtomicInt) (v : intptr_t) :
  option_map (map (fun e => is_release (event_order e))) (trace_of (store v c))
  = Some [false].
Proof. reflexivity. Qed.

Lemma load_acquires (c : AtomicInt) :
  option_map (map (fun e => is_acquire (event_order e))) (trace_of (load c))
  = Some [true].
Proof. reflexivity. Qed.

Lemma exchange_releases_only (c : AtomicInt) (v : intptr_t) :
  option_map (map (fun e => (is_release (event_order e), is_acquire (event_order e))))
             (trace_of (exchange v c))
  = Some [(true, false)].
Proof. reflexivity. Qed.

End Orders.

(** ** Any number of threads, any interleaving *)

Section Interleavings.
Context {P : Platform}.

Lemma perform_eq (k : call) (c : AtomicInt) :
  exists e,
    perform k c
    = Done (register_reply (value c) k)
           {| value := register_next (value c) k |} [e].
Proof.
  destruct k as [v| |v]; destruct c as [x]; eexists; reflexivity.
Qed.

Lemma register_history_snoc (cur : intptr_t) (h : list completed) (c : completed) :
  register_history cur (h ++ [c])
  <-> register_history cur h
      /\ got c = register_reply (register_final cur h) (what c).
Proof.
  revert cur. induction h as [|d h IH]; intros cur; simpl.
  - tauto.
  - rewrite IH. tauto.
Qed.

Lemma register_final_snoc (cur : intptr_t) (h : list completed) (c : completed) :
  register_final cur (h ++ [c]) = register_next (register_final cur h) (what c).
Proof.
  revert cur. induction h as [|d h IH]; intros cur; simpl; [reflexivity|].
  apply IH.
Qed.

Lemma boot_coherent (c : AtomicInt) (pool : list (list call)) :
  coherent (value c) (boot c pool).
Proof. split; reflexivity. Qed.

Lemma step_coherent (initial : intptr_t) (tid : nat) (m : machine) :
  coherent initial m ->
  exists m', step tid m = Some m' /\ coherent initial m'.
Proof.
  intros [Hh Hv]. unfold step.
  destruct (nth_error (pending m) tid) as [[|k rest]|];
    try (exists m; split; [reflexivity | split; assumption]).
  destruct (perform_eq k (shared m)) as [e ->].
  eexists; split; [reflexivity|].
  split; simpl.
  - apply register_history_snoc; simpl. split; [assumption|].
    now rewrite Hv.
  - rewrite register_final_snoc; simpl. now rewrite Hv.
Qed.

Lemma run_coherent (initial : intptr_t) (sched : list nat) (m : machine) :
  coherent initial m ->
  exists m', run sched m = Some m' /\ coherent initial m'.
Proof.
  revert m. induction sched as [|tid sched IH]; intros m Hm; simpl.
  - exists m; split; [reflexivity | assumption].
  - destruct (step_coherent initial tid m Hm) as (m1 & -> & Hm1).
    now apply IH.
Qed.

Lemma written_before_cons (c : completed) (h : list completed) (i : nat) (r : intptr_t) :
  written_before h i r -> written_before (c :: h) (S i) r.
Proof.
  intros (j & d & Hj & Hd & Hw). exists (S j), d. repeat split; [lia | assumption..].
Qed.

Lemma register_history_loads (cur : intptr_t) (h : list completed) :
  register_history cur h -> loads_see_initial_or_prior_writes cur h.
Proof.
  revert cur. induction h as [|c h IH]; intros cur Hh i r [tid Hi].
  - destruct i; discriminate.
  - destruct Hh as [Hgot Hrest]. destruct i as [|i]; simpl in Hi.
    + injection Hi as ->. simpl in Hgot. left. congruence.
    + destruct (IH _ Hrest i r) as [Hr | Hr].
      * now exists tid.
      * unfold register_next in Hr.
        destruct (call_written (what c)) as [v|] eqn:Hw.
        -- right. exists 0%nat, c. subst r. repeat split; [lia | assumption].
        -- now left.
      * right. now apply written_before_cons.
Qed.

(** The completed calls of every run form a history of a sequential
    register: the calls take effect one at a time, in one order. *)
Lemma run_linearizable (sched : list nat) (pool : list (list call)) (c : AtomicInt) :
  exists m,
    run sched (boot c pool) = Some m
    /\ register_history (value c) (history m).
Proof.
  destruct (run_coherent (value c) sched _ (boot_coherent c pool)) as (m & Hrun & Hh & _).
  now exists m.
Qed.

(** C8, as stated, fails: a load that runs before any store or exchange
    returns the value the cell was created with, which no call wrote. *)
Lemma load_before_any_write :
  let zero := intptr_of_Z (P := LP64) 0 in
  let h := [{| who := 0; what := CallLoad; got := RetInt zero |}] in
  run [0%nat] (boot {| value := zero |} [[CallLoad]])
  = Some {| shared := {| value := zero |};
            pending := [[]];
            history := h;
            accesses := [EvLoad __ATOMIC_ACQUIRE zero] |}
  /\ ~ loads_see_prior_writes h.
Proof.
  cbv zeta. split; [reflexivity|].
  intros H.
  destruct (H 0%nat (intptr_of_Z 0)) as (j & c & Hj & _).
  - now exists 0%nat.
  - lia.
Qed.

(** C8, amended: whatever the threads, their calls and the interleaving, the
    run is defined and every load returns the value the cell was created
    with or a value written by a store or exchange completed before it: one
    of those values whole, never a mix. *)
Theorem no_torn_read (sched : list nat) (pool : list (list call)) (c : AtomicInt) :
  exists m,
    run sched (boot c pool) = Some m
    /\ loads_see_initial_or_prior_writes (value c) (history m).
Proof.
  destruct (run_linearizable sched pool c) as (m & Hrun & Hh).
  exists m. split; [assumption|].
  now apply register_history_loads.
Qed.

End Interleavings.

(** ** Histories of a sequential register *)

Section Histories.
Context {P : Platform}.

Lemma register_history_replies (cur : intptr_t) (h : list completed) :
  register_history cur h -> replies_track_register cur h.
Proof.
  revert cur. induction h as [|c h IH]; intros cur Hh i d Hi.
  - destruct i; discriminate.
  - destruct Hh as [Hgot Hrest]. destruct i as [|i]; simpl in *.
    + now injection Hi as <-.
    + now apply IH.
Qed.

Lemma register_history_conserves (cur : intptr_t) (h : list completed) :
  register_history cur h ->
  Forall (fun d => negb (is_store (what d)) = true) h ->
  Permutation (register_final cur h :: handed_out h) (cur :: handed_in h).
Proof.
  revert cur. induction h as [|c h IH]; intros cur Hh Hns; simpl.
  - apply Permutation_refl.
  - destruct Hh as [Hgot Hrest]. inversion Hns as [|? ? Hc Hns']; subst.
    specialize (IH _ Hrest Hns').
    unfold taken, given, register_next in *.
    destruct (what c) as [v| |v]; simpl in *; try discriminate;
      try rewrite Hgot; simpl.
    + exact IH.
    + eapply perm_trans; [apply perm_swap|].
      now apply perm_skip.
Qed.

Lemma avoids_next (x cur : intptr_t) (k : call) :
  avoids x k = true -> cur <> x -> register_next cur k <> x.
Proof.
  unfold avoids, register_next. destruct (call_written k) as [v|]; [|tauto].
  intros Hv _ ->. apply negb_true_iff in Hv.
  assert (intptr_eqb x x = true) by now apply intptr_eqb_eq.
  congruence.
Qed.

Lemma register_reply_read (cur r : intptr_t) (k : call) :
  register_reply cur k = RetInt r -> r = cur.
Proof. destruct k; simpl; congruence. Qed.

Lemma unwritten_gone (x cur : intptr_t) (h : list completed) :
  register_history cur h -> unwritten x h -> cur <> x ->
  forall i, ~ read_returned h i x.
Proof.
  revert cur. induction h as [|c h IH]; intros cur Hh Hu Hcur i (d & Hi & Hd).
  - destruct i; discriminate.
  - destruct Hh as [Hgot Hrest]. inversion Hu as [|? ? Hc Hu']; subst.
    destruct i as [|i]; simpl in Hi.
    + injection Hi as <-. rewrite Hgot in Hd.
      apply register_reply_read in Hd. congruence.
    + apply (IH _ Hrest Hu' (avoids_next _ _ _ Hc Hcur) i).
      now exists d.
Qed.

Lemma exchange_returned_read (h : list completed) (i : nat) (r : intptr_t) :
  exchange_returned h i r -> read_returned h i r.
Proof. intros (tid & v & Hi). eexists; split; [exact Hi | reflexivity]. Qed.

Lemma exchange_moves_on (x cur : intptr_t) (c : completed) (h : list completed) :
  register_history cur (c :: h) -> unwritten x (c :: h) ->
  exchange_returned (c :: h) 0 x ->
  forall j, ~ exchange_returned (c :: h) (S j) x.
Proof.
  intros [Hgot Hrest] Hu (tid & v & Hi) j Hj.
  inversion Hu as [|? ? Hc Hu']; subst.
  injection Hi as ->. simpl in *.
  apply (unwritten_gone x v h Hrest Hu') with (i := j).
  - unfold avoids in Hc; simpl in Hc. apply negb_true_iff in Hc.
    intros ->. assert (intptr_eqb x x = true) by now apply intptr_eqb_eq.
    congruence.
  - apply exchange_returned_read. exact Hj.
Qed.

Lemma register_history_one_taker (x cur : intptr_t) (h : list completed) :
  register_history cur h -> unwritten x h ->
  returned_by_one_exchange_at_most x h.
Proof.
  revert cur. induction h as [|c h IH]; intros cur Hh Hu i j Hi Hj.
  - destruct Hi as (? & ? & Hi). destruct i; discriminate.
  - destruct i as [|i], j as [|j]; [reflexivity | | |].
    + destruct (exchange_moves_on x cur c h Hh Hu Hi j Hj).
    + destruct (exchange_moves_on x cur c h Hh Hu Hj i Hi).
    + f_equal. destruct Hh as [_ Hrest]. inversion Hu; subst.
      now apply (IH _ Hrest).
Qed.

Lemma register_history_monotone (x cur : intptr_t) (h : list completed) :
  register_history cur h -> unwritten x h -> never_seen_again x h.
Proof.
  revert cur. induction h as [|c h IH]; intros cur Hh Hu i j r Hij Hi Hr Hj.
  - destruct Hj as (? & Hj & _). destruct j; discriminate.
  - destruct Hh as [Hgot Hrest]. inversion Hu as [|? ? Hc Hu']; subst.
    destruct j as [|j]; [lia|]. destruct i as [|i].
    + destruct Hi as (d & Hd & Hgd). injection Hd as <-.
      rewrite Hgot in Hgd. apply register_reply_read in Hgd. subst r.
      apply (unwritten_gone x _ h Hrest Hu' (avoids_next _ _ _ Hc Hr) j).
      exact Hj.
    + apply (IH _ Hrest Hu' i j r); [lia | exact Hi | exact Hr | exact Hj].
Qed.

End Histories.

(** ** What every run keeps *)

Section Runs.
Context {P : Platform}.

Lemma replace_nth_Forall {A} (Q : A -> Prop) (n : nat) (x : A) (l : list A) :
  Forall Q l -> Q x -> Forall Q (replace_nth n x l).
Proof.
  intros Hl Hx. revert n.
  induction Hl as [|a l Ha Hl IH]; intros [|n]; simpl; constructor; auto.
Qed.

Lemma boot_calls_satisfy (q : call -> bool) (c : AtomicInt) (pool : list (list call)) :
  forallb (forallb q) pool = true -> calls_satisfy q (boot c pool).
Proof.
  intros Hq. split; simpl; [|constructor].
  apply Forall_forall. intros l Hl. apply Forall_forall. intros k Hk.
  rewrite forallb_forall in Hq. specialize (Hq l Hl).
  rewrite forallb_forall in Hq. now apply Hq.
Qed.

Lemma step_calls_satisfy (q : call -> bool) (tid : nat) (m m' : machine) :
  calls_satisfy q m -> step tid m = Some m' -> calls_satisfy q m'.
Proof.
  intros [Hp Hh]. unfold step.
  destruct (nth_error (pending m) tid) as [[|k rest]|] eqn:Hn;
    try (intros [= <-]; now split).
  destruct (perform k (shared m)) as [r cell t|]; [|discriminate].
  intros [= <-]. apply nth_error_In in Hn.
  pose proof (proj1 (Forall_forall _ _) Hp _ Hn) as Hk.
  inversion Hk as [|? ? Hqk Hrest]; subst.
  split; simpl.
  - now apply replace_nth_Forall.
  - apply Forall_app. split; [assumption|]. now repeat constructor.
Qed.

Lemma run_calls_satisfy (q : call -> bool) (sched : list nat) (m m' : machine) :
  calls_satisfy q m -> run sched m = Some m' -> calls_satisfy q m'.
Proof.
  revert m. induction sched as [|tid sched IH]; intros m Hm; simpl.
  - now intros [= <-].
  - destruct (step tid m) as [m1|] eqn:Hs; [|discriminate].
    apply IH. now apply (step_calls_satisfy q tid m).
Qed.

Lemma perform_access (tid : nat) (k : call) (c c' : AtomicInt) (r : reply) (t : list event) :
  perform k c = Done r c' t ->
  map Some t = [access_of {| who := tid; what := k; got := r |}].
Proof.
  destruct k as [v| |v]; destruct c as [x]; simpl;
    intros [= <- <- <-]; reflexivity.
Qed.

Lemma step_logged (tid : nat) (m m' : machine) :
  map Some (accesses m) = map access_of (history m) ->
  step tid m = Some m' ->
  map Some (accesses m') = map access_of (history m').
Proof.
  intros Hl. unfold step.
  destruct (nth_error (pending m) tid) as [[|k rest]|];
    try (now intros [= <-]).
  destruct (perform k (shared m)) as [r cell t|] eqn:Hp; [|discriminate].
  intros [= <-]; simpl. rewrite !map_app, Hl. f_equal.
  now apply (perform_access tid k (shared m) cell).
Qed.

Lemma run_logged (sched : list nat) (m m' : machine) :
  map Some (accesses m) = map access_of (history m) ->
  run sched m = Some m' ->
  map Some (accesses m') = map access_of (history m').
Proof.
  revert m. induction sched as [|tid sched IH]; intros m Hm; simpl.
  - now intros [= <-].
  - destruct (step tid m) as [m1|] eqn:Hs; [|discriminate].
    apply IH. now apply (step_logged tid m).
Qed.

(** A run is defined, ends in a coherent machine, and completes only calls
    that pass whatever test the whole pool passed. *)
Lemma run_summary (q : call -> bool) (sched : list nat)
      (pool : list (list call)) (c : AtomicInt) :
  forallb (forallb q) pool = true ->
  exists m,
    run sched (boot c pool) = Some m
    /\ coherent (value c) m
    /\ Forall (fun d => q (what d) = true) (history m).
Proof.
  intros Hq.
  destruct (run_coherent (value c) sched _ (boot_coherent c pool)) as (m & Hrun & Hm).
  exists m. repeat split; try assumption; try apply Hm.
  apply (run_calls_satisfy q sched (boot c pool) m); [|assumption].
  now apply boot_calls_satisfy.
Qed.

(** X1: whatever the threads and the interleaving, the calls take effect
    one at a time in the order they complete: every load and exchange
    returns the value written by the latest store or exchange completed
    before it (the initial value if there is none), and the cell ends up
    holding the value written last. *)
Theorem calls_take_effect_in_order
        (sched : list nat) (pool : list (list call)) (c : AtomicInt) :
  exists m,
    run sched (boot c pool) = Some m
    /\ replies_track_register (value c) (history m)
    /\ value (shared m) = register_final (value c) (history m).
Proof.
  destruct (run_coherent (value c) sched _ (boot_coherent c pool))
    as (m & Hrun & Hh & Hv).
  exists m. repeat split; try assumption.
  now apply register_history_replies.
Qed.

(** X2: when the threads only load and exchange, no value is lost and none
    is duplicated: the values the exchanges returned, with the value left
    in the cell, are the values the exchanges put in, with the initial
    value, up to order. *)
Theorem exchanges_conserve_values
        (sched : list nat) (pool : list (list call)) (c : AtomicInt) :
  never_stores pool = true ->
  exists m,
    run sched (boot c pool) = Some m
    /\ Permutation (value (shared m) :: handed_out (history m))
                   (value c :: handed_in (history m)).
Proof.
  intros Hns.
  destruct (run_summary _ sched pool c Hns) as (m & Hrun & [Hh Hv] & Hq).
  exists m. split; [assumption|]. rewrite Hv.
  now apply register_history_conserves.
Qed.

(** X3: a value that no call writes is returned by one exchange at most,
    whatever the interleaving: of the threads that exchange on a fresh
    cell, only one gets the initial value. *)
Theorem unwritten_value_taken_once
        (x : intptr_t) (sched : list nat) (pool : list (list call)) (c : AtomicInt) :
  never_writes x pool = true ->
  exists m,
    run sched (boot c pool) = Some m
    /\ returned_by_one_exchange_at_most x (history m).
Proof.
  intros Hnw.
  destruct (run_summary _ sched pool c Hnw) as (m & Hrun & [Hh _] & Hq).
  exists m. split; [assumption|].
  now apply (register_history_one_taker x (value c)).
Qed.

(** X4: a value that no call writes is never seen again once it is gone:
    after a load or exchange has returned something else, no later load or
    exchange returns it. *)
Theorem unwritten_value_never_returns
        (x : intptr_t) (sched : list nat) (pool : list (list call)) (c : AtomicInt) :
  never_writes x pool = true ->
  exists m,
    run sched (boot c pool) = Some m
    /\ never_seen_again x (history m).
Proof.
  intros Hnw.
  destruct (run_summary _ sched pool c Hnw) as (m & Hrun & [Hh _] & Hq).
  exists m. split; [assumption|].
  now apply (register_history_monotone x (value c)).
Qed.

(** X5: in every run each completed call has made exactly one atomic
    access, in completion order: a store a relaxed write of its argument,
    a load an acquire read of what it returned, an exchange a release
    read-modify-write; no other access and no other order occurs. *)
Theorem one_access_per_call
        (sched : list nat) (pool : list (list call)) (c : AtomicInt) :
  exists m,
    run sched (boot c pool) = Some m
    /\ map Some (accesses m) = map access_of (history m).
Proof.
  destruct (run_coherent (value c) sched _ (boot_coherent c pool)) as (m & Hrun & _).
  exists m. split; [assumption|].
  now apply (run_logged sched (boot c pool) m).
Qed.

(** X6: in one thread a load followed by a store returns and leaves what an
    exchange does, but between threads it is not an exchange: two threads
    that each load and then store can both get the initial value, and the
    first store is overwritten unseen. *)
Theorem load_then_store_not_atomic (c : AtomicInt) (v1 v2 : intptr_t) :
  (result_of (load_then_store v1 c) = result_of (exchange v1 c)
   /\ final_of (load_then_store v1 c) = final_of (exchange v1 c))
  /\ exists m,
       run [0; 1; 0; 1]%nat
           (boot c [[CallLoad; CallStore v1]; [CallLoad; CallStore v2]])
       = Some m
       /\ load_returned (history m) 0 (value c)
       /\ load_returned (history m) 1 (value c)
       /\ value (shared m) = v2.
Proof.
  destruct c as [x]. split; [split; reflexivity|].
  eexists; split; [reflexivity|]. simpl.
  repeat split; eexists; reflexivity.
Qed.

End Runs.

(** ** The conditional properties at work, on a 64-bit platform *)

Lemma exchanges_conserve_values_witness :
  let one := intptr_of_Z (P := LP64) 1 in
  let two := intptr_of_Z (P := LP64) 2 in
  let c := {| value := intptr_of_Z (P := LP64) 0 |} in
  let pool := [[CallExchange one; CallLoad]; [CallExchange two]] in
  never_stores pool = true
  /\ exists m,
       run [1; 0; 0]%nat (boot c pool) = Some m
       /\ Permutation (value (shared m) :: handed_out (history m))
                      (value c :: handed_in (history m)).
Proof.
  cbv zeta. split; [reflexivity|].
  apply exchanges_conserve_values. reflexivity.
Defined.

Lemma unwritten_value_taken_once_witness :
  let zero := intptr_of_Z (P := LP64) 0 in
  let one := intptr_of_Z (P := LP64) 1 in
  let pool := [[CallExchange one]; [CallExchange one]; [CallLoad]] in
  never_writes zero pool = true
  /\ exists m,
       run [1; 2; 0]%nat (boot {| value := zero |} pool) = Some m
       /\ returned_by_one_exchange_at_most zero (history m).
Proof.
  cbv zeta. split; [reflexivity|].
  apply unwritten_value_taken_once. reflexivity.
Defined.

Lemma unwritten_value_never_returns_witness :
  let zero := intptr_of_Z (P := LP64) 0 in
  let flag := intptr_of_Z (P := LP64) 42 in
  let pool := [[CallStore flag]; [CallLoad; CallLoad; CallLoad]] in
  never_writes zero pool = true
  /\ exists m,
       run [1; 0; 1; 1]%nat (boot {| value := zero |} pool) = Some m
       /\ never_seen_again zero (history m).
Proof.
  cbv zeta. split; [reflexivity|].
  apply unwritten_value_never_returns. reflexivity.
Defined.
